(** * Data-key options builder (mongo/options/datakeyoptions.go)

    A shallow embedding of the Go package [options], file
    [datakeyoptions.go]: the record [DataKeyOptions], the builder
    [DataKeyOptionsBuilder] that accumulates deferred mutations, the entry
    factory [DataKey], the accessor [List] and the three setters.

    Go values are modelled as follows.
    - A pointer is a number: [0] is [nil], a positive number is the address
      of an allocated object.  Objects live in a heap, a finite map from
      addresses to values; builders and option records have a heap each.
    - A method that dereferences a pointer is a computation over the heap
      that either returns a value and the next heap, or panics (nil or
      dangling pointer) and returns nothing: the monad [Go].
    - A slice is either the nil slice or a sequence of elements; the package
      never writes through an element of a slice, so the backing array is not
      modelled apart from its contents.
    - [interface{}] is either nil or a dynamic value of some type [dyn],
      about which the package assumes nothing.
    - [error] is either nil or a failure carrying its message.  *)

From Stdlib Require Import Init.Byte.
From stdpp Require Import base option list gmap strings infinite.

Set Default Proof Using "Type".

(** ** The monad of Go computations over a heap *)

Definition Go (S A : Type) : Type := S → option (A * S).

Global Instance Go_ret {S} : MRet (Go S) := λ A a s, Some (a, s).

Global Instance Go_bind {S} : MBind (Go S) := λ A B k m s,
  match m s with
  | Some (a, s') => k a s'
  | None => None
  end.

(** ** Pointers and heaps *)

Definition ptr := N.

Definition nil_ptr : ptr := 0%N.

Abbreviation heap T := (gmap positive T).

(** [&T{...}] and [new(T)]: allocate at an address that is not yet in use. *)
Definition alloc {T} (v : T) : Go (heap T) ptr := λ h,
  let l := fresh (dom h) in Some (Npos l, <[l := v]> h).

(** [*p] as a value. *)
Definition load {T} (p : ptr) : Go (heap T) T := λ h,
  match p with
  | N0 => None
  | Npos l => match h !! l with
              | Some v => Some (v, h)
              | None => None
              end
  end.

(** [*p = v]. *)
Definition store {T} (p : ptr) (v : T) : Go (heap T) unit := λ h,
  match p with
  | N0 => None
  | Npos l => match h !! l with
              | Some _ => Some ((), <[l := v]> h)
              | None => None
              end
  end.

(** [p.f = v], where [upd] replaces field [f] of the pointee. *)
Definition assign {T} (p : ptr) (upd : T → T) : Go (heap T) unit :=
  v ← load p;
  store p (upd v).

(** ** Slices *)

Inductive slice (A : Type) : Type :=
  | nil_slice
  | mk_slice (elems : list A).
Arguments nil_slice {A}.
Arguments mk_slice {A} elems.

Definition elements {A} (s : slice A) : list A :=
  match s with
  | nil_slice => []
  | mk_slice l => l
  end.

(** [len(s)] *)
Definition len {A} (s : slice A) : nat := length (elements s).

(** [append(s, x)]: the elements of [s] followed by [x]; never nil. *)
Definition append {A} (s : slice A) (x : A) : slice A :=
  mk_slice (elements s ++ [x]).

(** ** Errors *)

Inductive error : Type :=
  | nil_error
  | mk_error (msg : string).

(** A document, as callers pass for a master key: named string fields. *)
Definition document : Type := list (string * string).

Section DataKey.

(** The dynamic values an [interface{}] can hold. *)
Context {dyn : Type}.

Inductive interface : Type :=
  | nil_interface
  | mk_interface (v : dyn).

(** ** [type DataKeyOptions struct] *)

Record DataKeyOptions : Type := mkDataKeyOptions {
  MasterKey : interface;
  KeyAltNames : slice string;
  KeyMaterial : slice byte;
}.

(** The zero value [DataKeyOptions{}]. *)
Definition zero_DataKeyOptions : DataKeyOptions :=
  {| MasterKey := nil_interface;
     KeyAltNames := nil_slice;
     KeyMaterial := nil_slice |}.

(** Field assignments [opts.F = v] on the pointee. *)
Definition set_MasterKey (v : interface) (o : DataKeyOptions) :=
  {| MasterKey := v; KeyAltNames := KeyAltNames o; KeyMaterial := KeyMaterial o |}.

Definition set_KeyAltNames (v : slice string) (o : DataKeyOptions) :=
  {| MasterKey := MasterKey o; KeyAltNames := v; KeyMaterial := KeyMaterial o |}.

Definition set_KeyMaterial (v : slice byte) (o : DataKeyOptions) :=
  {| MasterKey := MasterKey o; KeyAltNames := KeyAltNames o; KeyMaterial := v |}.

(** [func(opts *DataKeyOptions) error] *)
Definition setter : Type := ptr → Go (heap DataKeyOptions) error.

(** ** [type DataKeyOptionsBuilder struct] *)

Record DataKeyOptionsBuilder : Type := mkDataKeyOptionsBuilder {
  Opts : slice setter;
}.

(** [dk.Opts = v] on the pointee. *)
Definition set_Opts (v : slice setter) (b : DataKeyOptionsBuilder) :=
  {| Opts := v |}.

(** [func DataKey() *DataKeyOptionsBuilder] *)
Definition DataKey : Go (heap DataKeyOptionsBuilder) ptr :=
  alloc {| Opts := nil_slice |}.

(** [func (dk *DataKeyOptionsBuilder) List()] *)
Definition List (dk : ptr) : Go (heap DataKeyOptionsBuilder) (slice setter) :=
  b ← load dk;
  mret (Opts b).

(** [func (dk *DataKeyOptionsBuilder) SetMasterKey(masterKey interface{})] *)
Definition SetMasterKey (dk : ptr) (masterKey : interface)
    : Go (heap DataKeyOptionsBuilder) ptr :=
  assign dk (λ b, set_Opts (append (Opts b) (λ opts,
    assign opts (set_MasterKey masterKey);;
    mret nil_error)) b);;
  mret dk.

(** [func (dk *DataKeyOptionsBuilder) SetKeyAltNames(keyAltNames []string)] *)
Definition SetKeyAltNames (dk : ptr) (keyAltNames : slice string)
    : Go (heap DataKeyOptionsBuilder) ptr :=
  assign dk (λ b, set_Opts (append (Opts b) (λ opts,
    assign opts (set_KeyAltNames keyAltNames);;
    mret nil_error)) b);;
  mret dk.

(** [func (dk *DataKeyOptionsBuilder) SetKeyMaterial(keyMaterial []byte)] *)
Definition SetKeyMaterial (dk : ptr) (keyMaterial : slice byte)
    : Go (heap DataKeyOptionsBuilder) ptr :=
  assign dk (λ b, set_Opts (append (Opts b) (λ opts,
    assign opts (set_KeyMaterial keyMaterial);;
    mret nil_error)) b);;
  mret dk.

(** ** Sequences of setter calls *)

Inductive call : Type :=
  | CallSetMasterKey (masterKey : interface)
  | CallSetKeyAltNames (keyAltNames : slice string)
  | CallSetKeyMaterial (keyMaterial : slice byte).

Definition invoke (dk : ptr) (c : call) : Go (heap DataKeyOptionsBuilder) ptr :=
  match c with
  | CallSetMasterKey masterKey => SetMasterKey dk masterKey
  | CallSetKeyAltNames keyAltNames => SetKeyAltNames dk keyAltNames
  | CallSetKeyMaterial keyMaterial => SetKeyMaterial dk keyMaterial
  end.

(** A fluent chain [dk.SetX(x).SetY(y)...]: each call is made on the builder
    that the call before it returned. *)
Fixpoint chain (dk : ptr) (cs : list call) : Go (heap DataKeyOptionsBuilder) ptr :=
  match cs with
  | [] => mret dk
  | c :: cs => dk' ← invoke dk c; chain dk' cs
  end.

(** [DataKey().SetX(x).SetY(y)....List()] *)
Definition configure (cs : list call)
    : Go (heap DataKeyOptionsBuilder) (slice setter) :=
  dk ← DataKey;
  dk' ← chain dk cs;
  List dk'.

(** ** The consumer of a builder *)

(** Modelled from the spec: the key-creation operation that consumes a
    builder is not part of [datakeyoptions.go].  The spec describes it as
    applying "all deferred mutations in order to a fresh options value";
    "application must stop at the first failure, leaving the partially built
    options value unused". *)
Fixpoint apply_in_order (fns : list setter) (args : ptr)
    : Go (heap DataKeyOptions) error :=
  match fns with
  | [] => mret nil_error
  | fn :: fns =>
      err ← fn args;
      match err with
      | nil_error => apply_in_order fns args
      | mk_error _ => mret err
      end
  end.

(** Modelled from the spec: the application of a deferred sequence to a
    fresh, zero-valued options record (the consumer is not part of
    [datakeyoptions.go]).  It returns the record and a nil error, or a nil
    pointer and the first failure. *)
Definition Apply (fns : slice setter) : Go (heap DataKeyOptions) (ptr * error) :=
  args ← alloc zero_DataKeyOptions;
  err ← apply_in_order (elements fns) args;
  match err with
  | nil_error => mret (args, nil_error)
  | mk_error _ => mret (nil_ptr, err)
  end.

(** Modelled from the spec: the consumer run [n] times in a row on the same
    deferred sequence, "applied to fresh instances"; it collects the records
    built. *)
Fixpoint apply_times (n : nat) (fns : slice setter)
    : Go (heap DataKeyOptions) (list DataKeyOptions) :=
  match n with
  | O => mret []
  | S n =>
      r ← Apply fns;
      o ← load r.1;
      os ← apply_times n fns;
      mret (o :: os)
  end.

(** ** What the spec says of a call *)

(** The fields of [DataKeyOptions]. *)
Inductive field : Type := FMasterKey | FKeyAltNames | FKeyMaterial.

Global Instance field_eq_dec : EqDecision field.
Proof. solve_decision. Defined.

(** The field a setter call targets. *)
Definition target (c : call) : field :=
  match c with
  | CallSetMasterKey _ => FMasterKey
  | CallSetKeyAltNames _ => FKeyAltNames
  | CallSetKeyMaterial _ => FKeyMaterial
  end.

(** The record after the assignment the call defers. *)
Definition assigned (c : call) (o : DataKeyOptions) : DataKeyOptions :=
  match c with
  | CallSetMasterKey v => set_MasterKey v o
  | CallSetKeyAltNames v => set_KeyAltNames v o
  | CallSetKeyMaterial v => set_KeyMaterial v o
  end.

(** A setter function performs call [c] when, on a pointer to a record, it
    assigns as [c] says and returns a nil error, and panics on a pointer to
    nothing. *)
Definition performs (c : call) (fn : setter) : Prop :=
  ∀ (p : ptr) (σ : heap DataKeyOptions),
    fn p σ =
      match p with
      | N0 => None
      | Npos l => match σ !! l with
                  | Some o => Some (nil_error, <[l := assigned c o]> σ)
                  | None => None
                  end
      end.

(** The arguments of the calls to each setter. *)
Definition masterKey_of (c : call) : option interface :=
  match c with CallSetMasterKey v => Some v | _ => None end.

Definition keyAltNames_of (c : call) : option (slice string) :=
  match c with CallSetKeyAltNames v => Some v | _ => None end.

Definition keyMaterial_of (c : call) : option (slice byte) :=
  match c with CallSetKeyMaterial v => Some v | _ => None end.

(** The last value passed to a setter in a sequence of calls, [unset] when
    the setter was never called. *)
Definition last_passed {A} (arg : call → option A) (unset : A) (cs : list call) : A :=
  default unset (last (omap arg cs)).

(** The record after the assignments of a sequence of calls, in call order. *)
Definition assigned_all (cs : list call) (o : DataKeyOptions) : DataKeyOptions :=
  foldl (λ o c, assigned c o) o cs.

(** Two records agree on a field. *)
Definition same_field (f : field) (o o' : DataKeyOptions) : Prop :=
  match f with
  | FMasterKey => MasterKey o = MasterKey o'
  | FKeyAltNames => KeyAltNames o = KeyAltNames o'
  | FKeyMaterial => KeyMaterial o = KeyMaterial o'
  end.

End DataKey.

(** ** Sample inputs *)

Definition aws_key : @interface document :=
  mk_interface [("region", "us-east-1"); ("key", "arn:aws:kms:us-east-1:1:key/k")].

Definition azure_key : @interface document :=
  mk_interface [("keyVaultEndpoint", "foo.com:443"); ("keyName", "k")].

(** A heap holding one builder, at address 1, with nil [Opts]. *)
Definition one_builder : heap (@DataKeyOptionsBuilder document) :=
  {[ 1%positive := {| Opts := nil_slice |} ]}.

(** A new builder configured by [cs] in an empty heap, consumed in an empty
    heap, and the record read back. *)
Definition built {dyn} (cs : list (@call dyn)) : option (@DataKeyOptions dyn) :=
  match configure cs ∅ with
  | Some (fns, _) =>
      match Apply fns ∅ with
      | Some ((args, nil_error), σ) => fst <$> load args σ
      | _ => None
      end
  | None => None
  end.

(** * Properties *)

(** ** The monad and the heap *)

Lemma bind_returns {S A B} (m : Go S A) (k : A → Go S B) s a s' :
  m s = Some (a, s') → (m ≫= k) s = k a s'.
Proof. intros Hm. unfold mbind, Go_bind. by rewrite Hm. Qed.

Lemma bind_panics {S A B} (m : Go S A) (k : A → Go S B) s :
  m s = None → (m ≫= k) s = None.
Proof. intros Hm. unfold mbind, Go_bind. by rewrite Hm. Qed.

Section Heap.

Context {T : Type}.
Implicit Types (h : heap T) (l : positive).

Lemma alloc_fresh (v : T) h :
  ∃ l, h !! l = None ∧ alloc v h = Some (Npos l, <[l := v]> h).
Proof.
  exists (fresh (dom h)). split; [|done].
  apply not_elem_of_dom, is_fresh.
Qed.

Lemma load_allocated l h v : h !! l = Some v → load (Npos l) h = Some (v, h).
Proof. intros Hl. unfold load. by rewrite Hl. Qed.

Lemma assign_allocated l (upd : T → T) h v :
  h !! l = Some v → assign (Npos l) upd h = Some ((), <[l := upd v]> h).
Proof.
  intros Hl. unfold assign.
  rewrite (bind_returns _ _ h v h) by by apply load_allocated.
  unfold store. by rewrite Hl.
Qed.

Lemma assign_dangling l (upd : T → T) h :
  h !! l = None → assign (Npos l) upd h = None.
Proof.
  intros Hl. unfold assign. apply bind_panics. unfold load. by rewrite Hl.
Qed.

Lemma assign_nil (upd : T → T) h : assign nil_ptr upd h = None.
Proof. done. Qed.

End Heap.

(** ** The builder *)

Section Builder.

Context {dyn : Type}.
Implicit Types (h : heap (@DataKeyOptionsBuilder dyn)).
Implicit Types (σ : heap (@DataKeyOptions dyn)).
Implicit Types (b : @DataKeyOptionsBuilder dyn) (o : @DataKeyOptions dyn).
Implicit Types (c : @call dyn) (cs : list (@call dyn)).
Implicit Types (fn : @setter dyn) (fns : list (@setter dyn)).
Implicit Types (l : positive).

(** The function a setter appends performs the call. *)
Lemma deferred_performs c (upd : DataKeyOptions → DataKeyOptions) :
  (∀ o, upd o = assigned c o) →
  performs c (λ opts, assign opts upd;; mret nil_error).
Proof.
  intros Hupd [|l] σ; [done|].
  destruct (σ !! l) as [o|] eqn:Hl.
  - rewrite (bind_returns _ _ σ () (<[l := upd o]> σ))
      by by apply assign_allocated.
    by rewrite Hupd.
  - apply bind_panics. by apply assign_dangling.
Qed.

(** A setter call on an allocated builder appends one function, which
    performs the call, and returns the receiver. *)
Lemma invoke_appends c l h b :
  h !! l = Some b →
  ∃ fn, performs c fn ∧
    invoke (Npos l) c h
    = Some (Npos l, <[l := {| Opts := append (Opts b) fn |}]> h).
Proof.
  intros Hl.
  destruct c as [v|v|v]; eexists; (split; [by apply deferred_performs|]);
    unfold invoke, SetMasterKey, SetKeyAltNames, SetKeyMaterial;
    by erewrite bind_returns by by apply assign_allocated.
Qed.

(** A setter called on nil, or on a pointer to nothing, panics. *)
Lemma invoke_nil c h : invoke nil_ptr c h = None.
Proof. by destruct c. Qed.

Lemma List_allocated l h b : h !! l = Some b → List (Npos l) h = Some (Opts b, h).
Proof.
  intros Hl. unfold List. by erewrite bind_returns by by apply load_allocated.
Qed.

(** A chain of calls appends the functions of its calls in call order, and
    returns the receiver. *)
Lemma chain_appends cs l h b :
  h !! l = Some b →
  ∃ fns b', Forall2 performs cs fns ∧
    elements (Opts b') = elements (Opts b) ++ fns ∧
    (cs = [] → b' = b) ∧
    chain (Npos l) cs h = Some (Npos l, <[l := b']> h).
Proof.
  revert h b. induction cs as [|c cs IH]; intros h b Hl.
  - exists [], b. split_and!; [constructor|by rewrite app_nil_r|done|].
    by rewrite insert_id.
  - destruct (invoke_appends c l h b Hl) as (fn & Hfn & Hc).
    destruct (IH (<[l := {| Opts := append (Opts b) fn |}]> h)
                 {| Opts := append (Opts b) fn |}) as (fns & b' & Hfns & Hb' & _ & Hcs);
      [by rewrite lookup_insert_eq|].
    exists (fn :: fns), b'. split_and!; [by constructor| |done|].
    + rewrite Hb'. cbn. by rewrite <- app_assoc.
    + cbn [chain]. erewrite bind_returns by exact Hc.
      by rewrite Hcs, insert_insert_eq.
Qed.

Lemma chain_app cs1 cs2 dk h :
  chain dk (cs1 ++ cs2) h = (dk' ← chain dk cs1; chain dk' cs2) h.
Proof.
  revert dk h. induction cs1 as [|c cs1 IH]; intros dk h; [done|].
  cbn [chain app]. unfold mbind, Go_bind.
  destruct (invoke dk c h) as [[dk' h']|]; [|done]. apply IH.
Qed.

(** A new builder, configured by a chain of calls: [List] returns one
    function per call, in call order. *)
Lemma configure_returns cs h :
  ∃ l (s : slice setter), h !! l = None ∧
    Forall2 performs cs (elements s) ∧
    (cs = [] → s = nil_slice) ∧
    configure cs h = Some (s, <[l := {| Opts := s |}]> h).
Proof.
  destruct (alloc_fresh {| Opts := nil_slice |} h) as (l & Hl & Ha).
  destruct (chain_appends cs l (<[l := {| Opts := nil_slice |}]> h)
              {| Opts := nil_slice |}) as (fns & [s] & Hfns & Hs & Hnil & Hcs);
    [by rewrite lookup_insert_eq|].
  rewrite insert_insert_eq in Hcs. cbn in Hs. subst fns.
  exists l, s. split_and!; [done|done| |].
  - intros ->. by injection (Hnil eq_refl).
  - unfold configure, DataKey.
    erewrite bind_returns by exact Ha.
    erewrite bind_returns by exact Hcs.
    apply (List_allocated l _ {| Opts := s |}). by rewrite lookup_insert_eq.
Qed.

(** ** The consumer *)

Lemma apply_in_order_performs cs fns l σ o :
  Forall2 performs cs fns →
  σ !! l = Some o →
  apply_in_order fns (Npos l) σ = Some (nil_error, <[l := assigned_all cs o]> σ).
Proof.
  intros Hfns. revert σ o.
  induction Hfns as [|c fn cs fns Hfn _ IH]; intros σ o Hl.
  - cbn. by rewrite insert_id.
  - cbn [apply_in_order].
    erewrite bind_returns; last by rewrite (Hfn (Npos l) σ), Hl.
    rewrite (IH _ (assigned c o)); last by rewrite lookup_insert_eq.
    by rewrite insert_insert_eq.
Qed.

Lemma Apply_performs cs (s : slice setter) σ :
  Forall2 performs cs (elements s) →
  ∃ l, σ !! l = None ∧
    Apply s σ
    = Some ((Npos l, nil_error), <[l := assigned_all cs zero_DataKeyOptions]> σ).
Proof.
  intros Hs.
  destruct (alloc_fresh zero_DataKeyOptions σ) as (l & Hl & Ha).
  exists l. split; [done|]. unfold Apply.
  erewrite bind_returns by exact Ha.
  erewrite bind_returns;
    last by eapply apply_in_order_performs; [done|by rewrite lookup_insert_eq].
  by rewrite insert_insert_eq.
Qed.

(** ** Assignments and the last value passed *)

Lemma last_passed_cons {A} (arg : call → option A) (unset : A) c cs :
  last_passed arg unset (c :: cs) = last_passed arg (default unset (arg c)) cs.
Proof.
  unfold last_passed. cbn [omap list_omap].
  destruct (arg c) as [v|]; [|done].
  rewrite last_cons. by destruct (last (omap arg cs)).
Qed.

Lemma last_passed_snoc {A} (arg : call → option A) (unset v : A) c cs :
  arg c = Some v → last_passed arg unset (cs ++ [c]) = v.
Proof.
  intros Hc. revert unset. induction cs as [|c' cs IH]; intros unset.
  - unfold last_passed. cbn. by rewrite Hc.
  - rewrite <- app_comm_cons, last_passed_cons. apply IH.
Qed.

Lemma assigned_all_cons c cs o :
  assigned_all (c :: cs) o = assigned_all cs (assigned c o).
Proof. done. Qed.

Lemma MasterKey_assigned_all cs o :
  MasterKey (assigned_all cs o) = last_passed masterKey_of (MasterKey o) cs.
Proof.
  revert o. induction cs as [|c cs IH]; intros o; [done|].
  rewrite assigned_all_cons, IH, last_passed_cons. by destruct c.
Qed.

Lemma KeyAltNames_assigned_all cs o :
  KeyAltNames (assigned_all cs o) = last_passed keyAltNames_of (KeyAltNames o) cs.
Proof.
  revert o. induction cs as [|c cs IH]; intros o; [done|].
  rewrite assigned_all_cons, IH, last_passed_cons. by destruct c.
Qed.

Lemma KeyMaterial_assigned_all cs o :
  KeyMaterial (assigned_all cs o) = last_passed keyMaterial_of (KeyMaterial o) cs.
Proof.
  revert o. induction cs as [|c cs IH]; intros o; [done|].
  rewrite assigned_all_cons, IH, last_passed_cons. by destruct c.
Qed.

Lemma assigned_frame c (f : field) o :
  f ≠ target c → same_field f o (assigned c o).
Proof. by destruct c, f. Qed.

Lemma assigned_commute c1 c2 o :
  target c1 ≠ target c2 →
  assigned c2 (assigned c1 o) = assigned c1 (assigned c2 o).
Proof. by destruct c1, c2. Qed.

(** A new builder configured by [cs], then consumed: the record built is
    the zero record after the assignments of [cs]. *)
Lemma configure_Apply cs h σ :
  ∃ (s : slice setter) h' l,
    configure cs h = Some (s, h') ∧
    σ !! l = None ∧
    Apply s σ
    = Some ((Npos l, nil_error), <[l := assigned_all cs zero_DataKeyOptions]> σ).
Proof.
  destruct (configure_returns cs h) as (lb & s & _ & Hs & _ & Hc).
  destruct (Apply_performs cs s σ Hs) as (l & Hl & Ha).
  by exists s, (<[lb := {| Opts := s |}]> h), l.
Qed.

End Builder.

(** * The claims *)

Section Claims.

Context {dyn : Type}.
Implicit Types (h : heap (@DataKeyOptionsBuilder dyn)).
Implicit Types (σ : heap (@DataKeyOptions dyn)).
Implicit Types (b : @DataKeyOptionsBuilder dyn) (o : @DataKeyOptions dyn).
Implicit Types (c : @call dyn) (cs : list (@call dyn)).
Implicit Types (l : positive).

Lemma apply_times_performs cs (s : slice setter) n σ :
  Forall2 performs cs (elements s) →
  ∃ σ', apply_times n s σ
        = Some (replicate n (assigned_all cs zero_DataKeyOptions), σ').
Proof.
  intros Hs. revert σ. induction n as [|n IH]; intros σ; [by eexists|].
  destruct (Apply_performs cs s σ Hs) as (l & _ & Ha).
  destruct (IH (<[l := assigned_all cs zero_DataKeyOptions]> σ)) as (σ' & Hn).
  exists σ'. cbn [apply_times].
  erewrite bind_returns by exact Ha.
  erewrite bind_returns by (apply load_allocated; by rewrite lookup_insert_eq).
  by erewrite bind_returns by exact Hn.
Qed.

(** C1.  Last writer wins.  For every sequence of setter calls made on a new
    builder, applying the functions that [List] returns, in order, to a fresh
    zero-valued [DataKeyOptions] succeeds and yields a record in which each
    field is the last value passed to its setter, and the zero value when
    the setter was never called. *)
Theorem last_writer_wins cs h σ :
  ∃ (fns : slice setter) h' l σ' o,
    configure cs h = Some (fns, h') ∧
    Apply fns σ = Some ((Npos l, nil_error), σ') ∧
    σ' !! l = Some o ∧
    MasterKey o = last_passed masterKey_of nil_interface cs ∧
    KeyAltNames o = last_passed keyAltNames_of nil_slice cs ∧
    KeyMaterial o = last_passed keyMaterial_of nil_slice cs.
Proof.
  destruct (configure_Apply cs h σ) as (fns & h' & l & Hc & _ & Ha).
  exists fns, h', l, (<[l := assigned_all cs zero_DataKeyOptions]> σ),
    (assigned_all cs zero_DataKeyOptions).
  split_and!; [done|done|by rewrite lookup_insert_eq|..].
  - apply MasterKey_assigned_all.
  - apply KeyAltNames_assigned_all.
  - apply KeyMaterial_assigned_all.
Qed.

(** C2.  For every sequence of setter calls chained on a new builder, every
    call returns normally, and [List] then returns one function per call
    (the count is the number of calls), the i-th function performing the
    i-th call; [List] leaves the heap as it was, so a second [List] returns
    the same slice again. *)
Theorem List_reflects_calls cs h :
  ∃ l h0 h' (fns : slice setter),
    DataKey h = Some (Npos l, h0) ∧
    chain (Npos l) cs h0 = Some (Npos l, h') ∧
    List (Npos l) h' = Some (fns, h') ∧
    (s1 ← List (Npos l); s2 ← List (Npos l); mret (s1, s2)) h'
      = Some ((fns, fns), h') ∧
    len fns = length cs ∧
    Forall2 performs cs (elements fns).
Proof.
  destruct (alloc_fresh {| Opts := nil_slice |} h) as (l & Hl & Ha).
  destruct (chain_appends cs l (<[l := {| Opts := nil_slice |}]> h)
              {| Opts := nil_slice |}) as (fns & [s] & Hfns & Hs & _ & Hcs);
    [by rewrite lookup_insert_eq|].
  cbn in Hs. subst fns.
  assert (List (Npos l) (<[l := {| Opts := s |}]> (<[l := {| Opts := nil_slice |}]> h))
          = Some (s, <[l := {| Opts := s |}]> (<[l := {| Opts := nil_slice |}]> h)))
    as HL.
  { apply (List_allocated l _ {| Opts := s |}). by rewrite lookup_insert_eq. }
  exists l, (<[l := {| Opts := nil_slice |}]> h),
    (<[l := {| Opts := s |}]> (<[l := {| Opts := nil_slice |}]> h)), s.
  split_and!; [done|done|done| | |done].
  - erewrite bind_returns by exact HL. by erewrite bind_returns by exact HL.
  - unfold len. symmetry. by eapply Forall2_length.
Qed.

(** C3.  The function appended by any of the three setters never fails: the
    setter, called on any builder, appends one function to [Opts]; applied
    to a pointer to any [DataKeyOptions] that function returns a nil error,
    and whenever it returns at all the error is nil. *)
Theorem setters_never_fail c l h b :
  h !! l = Some b →
  ∃ (fn : setter) h',
    invoke (Npos l) c h = Some (Npos l, h') ∧
    List (Npos l) h' = Some (append (Opts b) fn, h') ∧
    (∀ l' σ o, σ !! l' = Some o → ∃ σ', fn (Npos l') σ = Some (nil_error, σ')) ∧
    (∀ p σ err σ', fn p σ = Some (err, σ') → err = nil_error).
Proof.
  intros Hl. destruct (invoke_appends c l h b Hl) as (fn & Hfn & Hc).
  exists fn, (<[l := {| Opts := append (Opts b) fn |}]> h).
  split_and!; [done| | |].
  - apply (List_allocated l _ {| Opts := append (Opts b) fn |}).
    by rewrite lookup_insert_eq.
  - intros l' σ o Ho. rewrite (Hfn (Npos l') σ), Ho. by eexists.
  - intros [|l'] σ err σ'; rewrite (Hfn _ σ); [done|].
    destruct (σ !! l'); [|done]. by intros [= <- _].
Qed.

(** C4.  A builder new from [DataKey] has an empty (nil) [Opts]; applying
    that empty sequence to a fresh record yields the zero record: a nil
    [MasterKey], nil [KeyAltNames] and nil [KeyMaterial]. *)
Theorem new_builder_is_empty h σ :
  ∃ l h' l' σ' o,
    DataKey h = Some (Npos l, h') ∧
    List (Npos l) h' = Some (nil_slice, h') ∧
    len (@nil_slice (@setter dyn)) = 0 ∧
    Apply nil_slice σ = Some ((Npos l', nil_error), σ') ∧
    σ' !! l' = Some o ∧
    MasterKey o = nil_interface ∧
    KeyAltNames o = nil_slice ∧
    KeyMaterial o = nil_slice.
Proof.
  destruct (alloc_fresh {| Opts := nil_slice |} h) as (l & Hl & Ha).
  destruct (Apply_performs [] nil_slice σ) as (l' & Hl' & HA); [constructor|].
  exists l, (<[l := {| Opts := nil_slice |}]> h), l',
    (<[l' := zero_DataKeyOptions]> σ), zero_DataKeyOptions.
  split_and!; try done.
  - apply (List_allocated l _ {| Opts := nil_slice |}).
    by rewrite lookup_insert_eq.
  - by rewrite lookup_insert_eq.
Qed.

Lemma configure_snoc cs c h :
  configure (cs ++ [c]) h
  = (dk ← DataKey; dk' ← chain dk cs; dk'' ← invoke dk' c; List dk'') h.
Proof.
  unfold configure, mbind, Go_bind.
  destruct (DataKey h) as [[dk h0]|]; [|done].
  rewrite chain_app. unfold mbind, Go_bind.
  destruct (chain dk cs h0) as [[dk' h1]|]; [|done]. cbn.
  unfold mbind, Go_bind. by destruct (invoke dk' c h1) as [[dk'' h2]|].
Qed.

(** C5.  For every slice of strings [names], nil or not, [SetKeyAltNames
    names] called last in a chain on a new builder and the sequence then
    applied to a fresh record yields [KeyAltNames] equal to [names]: the same
    elements in the same order, nothing removed and nothing reordered. *)
Theorem SetKeyAltNames_as_given (names : slice string) cs h σ :
  ∃ (fns : slice setter) h' l σ' o,
    (dk ← DataKey; dk' ← chain dk cs; dk'' ← SetKeyAltNames dk' names;
     List dk'') h = Some (fns, h') ∧
    Apply fns σ = Some ((Npos l, nil_error), σ') ∧
    σ' !! l = Some o ∧
    KeyAltNames o = names.
Proof.
  destruct (configure_Apply (cs ++ [CallSetKeyAltNames names]) h σ)
    as (fns & h' & l & Hc & _ & Ha).
  rewrite configure_snoc in Hc.
  eexists fns, h', l, _, _.
  split_and!; [exact Hc|exact Ha|by rewrite lookup_insert_eq|].
  rewrite KeyAltNames_assigned_all. by apply last_passed_snoc.
Qed.

(** C6.  For every byte slice [bytes], the nil slice and the empty slice
    included, [SetKeyMaterial bytes] returns normally, and called last in a
    chain on a new builder, the sequence then applied to a fresh record
    yields [KeyMaterial] equal to [bytes], nil staying nil and empty staying
    empty. *)
Theorem SetKeyMaterial_as_given (bytes : slice byte) cs h σ :
  ∃ (fns : slice setter) h' l σ' o,
    (dk ← DataKey; dk' ← chain dk cs; dk'' ← SetKeyMaterial dk' bytes;
     List dk'') h = Some (fns, h') ∧
    Apply fns σ = Some ((Npos l, nil_error), σ') ∧
    σ' !! l = Some o ∧
    KeyMaterial o = bytes.
Proof.
  destruct (configure_Apply (cs ++ [CallSetKeyMaterial bytes]) h σ)
    as (fns & h' & l & Hc & _ & Ha).
  rewrite configure_snoc in Hc.
  eexists fns, h', l, _, _.
  split_and!; [exact Hc|exact Ha|by rewrite lookup_insert_eq|].
  rewrite KeyMaterial_assigned_all. by apply last_passed_snoc.
Qed.

(** C7.  Application is deterministic.  For every builder configured by
    setter calls there is one record [o] such that applying its sequence to a
    fresh record yields [o] whatever the heap it runs in, so that two
    applications give equal records and [n] applications in a row give [n]
    copies of [o]. *)
Theorem application_is_deterministic cs h :
  ∃ (fns : slice setter) h' o,
    configure cs h = Some (fns, h') ∧
    (∀ σ1 σ2, ∃ l1 σ1' l2 σ2',
       Apply fns σ1 = Some ((Npos l1, nil_error), σ1') ∧
       Apply fns σ2 = Some ((Npos l2, nil_error), σ2') ∧
       σ1' !! l1 = Some o ∧ σ2' !! l2 = Some o) ∧
    (∀ n σ, ∃ σ', apply_times n fns σ = Some (replicate n o, σ')).
Proof.
  destruct (configure_returns cs h) as (lb & s & _ & Hs & _ & Hc).
  exists s, (<[lb := {| Opts := s |}]> h), (assigned_all cs zero_DataKeyOptions).
  split_and!; [done| |].
  - intros σ1 σ2.
    destruct (Apply_performs cs s σ1 Hs) as (l1 & _ & H1).
    destruct (Apply_performs cs s σ2 Hs) as (l2 & _ & H2).
    exists l1, (<[l1 := assigned_all cs zero_DataKeyOptions]> σ1),
      l2, (<[l2 := assigned_all cs zero_DataKeyOptions]> σ2).
    split_and!; [done|done|by rewrite lookup_insert_eq..].
  - intros n σ. by apply (apply_times_performs cs).
Qed.

(** C8.  Each setter returns the pointer it was called on: for every
    allocated builder [dk], each of the three setters returns [dk], the
    chain [dk.SetMasterKey(x).SetKeyAltNames(y)] returns [dk], and so does
    every chain of setter calls. *)
Theorem setters_return_receiver l h b
    (x : interface) (y : slice string) (z : slice byte) :
  h !! l = Some b →
  (∃ h', SetMasterKey (Npos l) x h = Some (Npos l, h')) ∧
  (∃ h', SetKeyAltNames (Npos l) y h = Some (Npos l, h')) ∧
  (∃ h', SetKeyMaterial (Npos l) z h = Some (Npos l, h')) ∧
  (∃ h', (dk ← SetMasterKey (Npos l) x; SetKeyAltNames dk y) h
         = Some (Npos l, h')) ∧
  (∀ cs, ∃ h', chain (Npos l) cs h = Some (Npos l, h')).
Proof.
  intros Hl.
  assert (∀ cs, ∃ h', chain (Npos l) cs h = Some (Npos l, h')) as Hchain.
  { intros cs. destruct (chain_appends cs l h b Hl) as (? & b' & _ & _ & _ & Hcs).
    by eexists. }
  split_and!; [| | | |done].
  - destruct (invoke_appends (CallSetMasterKey x) l h b Hl) as (? & _ & Hc).
    by eexists.
  - destruct (invoke_appends (CallSetKeyAltNames y) l h b Hl) as (? & _ & Hc).
    by eexists.
  - destruct (invoke_appends (CallSetKeyMaterial z) l h b Hl) as (? & _ & Hc).
    by eexists.
  - destruct (Hchain [CallSetMasterKey x; CallSetKeyAltNames y]) as (h' & Hcs).
    exists h'. rewrite <- Hcs. cbn [chain invoke].
    unfold mbind, Go_bind.
    destruct (SetMasterKey (Npos l) x h) as [[dk h1]|]; [|done].
    by destruct (SetKeyAltNames dk y h1) as [[dk' h2]|].
Qed.

(** C9.  Frame.  The function a setter appends assigns its own field only:
    applied to a pointer to any record [o], it returns a nil error and
    replaces [o] by a record that agrees with [o] on the two fields the
    setter does not target; no other record of the heap changes. *)
Theorem setter_frame c l h b :
  h !! l = Some b →
  ∃ (fn : setter) h',
    invoke (Npos l) c h = Some (Npos l, h') ∧
    List (Npos l) h' = Some (append (Opts b) fn, h') ∧
    ∀ l' σ o, σ !! l' = Some o →
      ∃ o', fn (Npos l') σ = Some (nil_error, <[l' := o']> σ) ∧
            ∀ f : field, f ≠ target c → same_field f o o'.
Proof.
  intros Hl. destruct (invoke_appends c l h b Hl) as (fn & Hfn & Hc).
  exists fn, (<[l := {| Opts := append (Opts b) fn |}]> h).
  split_and!; [done| |].
  - apply (List_allocated l _ {| Opts := append (Opts b) fn |}).
    by rewrite lookup_insert_eq.
  - intros l' σ o Ho. exists (assigned c o). split.
    + by rewrite (Hfn (Npos l') σ), Ho.
    + intros f Hf. by apply assigned_frame.
Qed.

(** C10.  Calls on distinct fields commute.  For two setter calls that
    target different fields, the two builders configured by the calls in
    either order yield, applied to fresh records, the same record. *)
Theorem distinct_fields_commute c1 c2 h1 h2 σ1 σ2 :
  target c1 ≠ target c2 →
  ∃ (fns1 : slice setter) h1' (fns2 : slice setter) h2' l1 σ1' l2 σ2' o,
    configure [c1; c2] h1 = Some (fns1, h1') ∧
    configure [c2; c1] h2 = Some (fns2, h2') ∧
    Apply fns1 σ1 = Some ((Npos l1, nil_error), σ1') ∧
    Apply fns2 σ2 = Some ((Npos l2, nil_error), σ2') ∧
    σ1' !! l1 = Some o ∧
    σ2' !! l2 = Some o.
Proof.
  intros Hne.
  destruct (configure_Apply [c1; c2] h1 σ1) as (fns1 & h1' & l1 & Hc1 & _ & Ha1).
  destruct (configure_Apply [c2; c1] h2 σ2) as (fns2 & h2' & l2 & Hc2 & _ & Ha2).
  exists fns1, h1', fns2, h2', l1, (<[l1 := assigned_all [c1; c2] zero_DataKeyOptions]> σ1),
    l2, (<[l2 := assigned_all [c2; c1] zero_DataKeyOptions]> σ2),
    (assigned_all [c1; c2] zero_DataKeyOptions).
  split_and!; [done|done|done|done|by rewrite lookup_insert_eq|].
  rewrite lookup_insert_eq. f_equal. unfold assigned_all. cbn.
  symmetry. by apply assigned_commute.
Qed.

End Claims.

(** * The claims on sample inputs *)

(** [SetMasterKey(A)] then [SetMasterKey(B)]: the record holds [B]. *)
Example SetMasterKey_twice :
  built [CallSetMasterKey aws_key; CallSetMasterKey azure_key]
  = Some {| MasterKey := azure_key;
            KeyAltNames := nil_slice;
            KeyMaterial := nil_slice |}.
Proof. reflexivity. Qed.

(** Alternate names are kept as given, duplicates included. *)
Example SetKeyAltNames_keeps_duplicates :
  KeyAltNames <$> built (dyn := document)
    [CallSetKeyAltNames (mk_slice ["b"; "a"; "b"])]
  = Some (mk_slice ["b"; "a"; "b"]).
Proof. reflexivity. Qed.

(** An empty key material stays empty and a nil one stays nil. *)
Example SetKeyMaterial_empty :
  KeyMaterial <$> built (dyn := document) [CallSetKeyMaterial (mk_slice [])]
  = Some (mk_slice []) ∧
  KeyMaterial <$> built (dyn := document) [CallSetKeyMaterial nil_slice]
  = Some nil_slice.
Proof. split; reflexivity. Qed.

(** The end-to-end scenario: a master key and one alternate name, no key
    material. *)
Example end_to_end :
  built [CallSetMasterKey aws_key; CallSetKeyAltNames (mk_slice ["altname1"])]
  = Some {| MasterKey := aws_key;
            KeyAltNames := mk_slice ["altname1"];
            KeyMaterial := nil_slice |}.
Proof. reflexivity. Qed.

(** Two calls on the same field do not commute. *)
Example same_field_order_matters :
  built [CallSetMasterKey aws_key; CallSetMasterKey azure_key]
  ≠ built [CallSetMasterKey azure_key; CallSetMasterKey aws_key].
Proof. discriminate. Qed.

(** The last value passed to [SetMasterKey], calls to other setters in
    between. *)
Example last_passed_MasterKey :
  last_passed masterKey_of nil_interface
    [CallSetMasterKey aws_key; CallSetKeyAltNames (mk_slice ["a"]);
     CallSetMasterKey azure_key; CallSetKeyMaterial nil_slice]
  = azure_key ∧
  last_passed masterKey_of nil_interface
    [CallSetKeyAltNames (dyn := document) (mk_slice ["a"])]
  = nil_interface.
Proof. split; reflexivity. Qed.

(** A setter called on a nil builder panics: it returns nothing. *)
Example SetMasterKey_on_nil :
  SetMasterKey nil_ptr aws_key one_builder = None.
Proof. reflexivity. Qed.

Lemma setters_never_fail_witness :
  one_builder !! 1%positive = Some {| Opts := nil_slice |} ∧
  ∃ (fn : setter) h',
    invoke (Npos 1) (CallSetMasterKey aws_key) one_builder = Some (Npos 1, h') ∧
    List (Npos 1) h' = Some (append nil_slice fn, h') ∧
    (∀ l' σ o, σ !! l' = Some o → ∃ σ', fn (Npos l') σ = Some (nil_error, σ')) ∧
    (∀ p σ err σ', fn p σ = Some (err, σ') → err = nil_error).
Proof.
  split; [reflexivity|].
  apply (setters_never_fail (CallSetMasterKey aws_key) 1 one_builder
           {| Opts := nil_slice |}).
  reflexivity.
Defined.

Lemma setters_return_receiver_witness :
  one_builder !! 1%positive = Some {| Opts := nil_slice |} ∧
  (∃ h', SetMasterKey (Npos 1) aws_key one_builder = Some (Npos 1, h')) ∧
  (∃ h', SetKeyAltNames (Npos 1) (mk_slice ["a"; "b"]) one_builder
         = Some (Npos 1, h')) ∧
  (∃ h', SetKeyMaterial (Npos 1) (mk_slice [Byte.x2a]) one_builder
         = Some (Npos 1, h')) ∧
  (∃ h', (dk ← SetMasterKey (Npos 1) aws_key;
          SetKeyAltNames dk (mk_slice ["a"; "b"])) one_builder
         = Some (Npos 1, h')) ∧
  (∀ cs, ∃ h', chain (Npos 1) cs one_builder = Some (Npos 1, h')).
Proof.
  split; [reflexivity|].
  apply (setters_return_receiver 1 one_builder {| Opts := nil_slice |}).
  reflexivity.
Defined.

Lemma setter_frame_witness :
  one_builder !! 1%positive = Some {| Opts := nil_slice |} ∧
  ∃ (fn : setter) h',
    invoke (Npos 1) (CallSetKeyAltNames (mk_slice ["a"; "b"])) one_builder
    = Some (Npos 1, h') ∧
    List (Npos 1) h' = Some (append nil_slice fn, h') ∧
    ∀ l' σ o, σ !! l' = Some o →
      ∃ o', fn (Npos l') σ = Some (nil_error, <[l' := o']> σ) ∧
            ∀ f : field,
              f ≠ target (dyn := document) (CallSetKeyAltNames (mk_slice ["a"; "b"])) →
              same_field f o o'.
Proof.
  split; [reflexivity|].
  apply (setter_frame (CallSetKeyAltNames (mk_slice ["a"; "b"])) 1 one_builder
           {| Opts := nil_slice |}).
  reflexivity.
Defined.

Lemma distinct_fields_commute_witness :
  target (CallSetMasterKey aws_key)
  ≠ target (dyn := document) (CallSetKeyAltNames (mk_slice ["a"; "b"])) ∧
  ∃ (fns1 : slice setter) h1' (fns2 : slice setter) h2' l1 σ1' l2 σ2' o,
    configure [CallSetMasterKey aws_key; CallSetKeyAltNames (mk_slice ["a"; "b"])] ∅
    = Some (fns1, h1') ∧
    configure [CallSetKeyAltNames (mk_slice ["a"; "b"]); CallSetMasterKey aws_key] ∅
    = Some (fns2, h2') ∧
    Apply fns1 ∅ = Some ((Npos l1, nil_error), σ1') ∧
    Apply fns2 ∅ = Some ((Npos l2, nil_error), σ2') ∧
    σ1' !! l1 = Some o ∧
    σ2' !! l2 = Some o.
Proof.
  split; [compute_done|].
  apply (distinct_fields_commute (CallSetMasterKey aws_key)
           (CallSetKeyAltNames (mk_slice ["a"; "b"])) ∅ ∅ ∅ ∅).
  compute_done.
Defined.

(** * Further properties of the builder *)

Section Further.

Context {dyn : Type}.
Implicit Types (h : heap (@DataKeyOptionsBuilder dyn)).
Implicit Types (σ : heap (@DataKeyOptions dyn)).
Implicit Types (b : @DataKeyOptionsBuilder dyn) (o : @DataKeyOptions dyn).
Implicit Types (c : @call dyn) (cs : list (@call dyn)).
Implicit Types (fn : @setter dyn) (p : ptr) (l : positive).

(** The function a call appends depends on the call alone, not on the
    builder it is appended to. *)
Lemma invoke_appends_uniform c :
  ∃ fn, performs c fn ∧
    ∀ l h b, h !! l = Some b →
      invoke (Npos l) c h
      = Some (Npos l, <[l := {| Opts := append (Opts b) fn |}]> h).
Proof.
  destruct c as [v|v|v]; eexists; (split; [by apply deferred_performs|]);
    intros l h b Hl;
    unfold invoke, SetMasterKey, SetKeyAltNames, SetKeyMaterial;
    by erewrite bind_returns by by apply assign_allocated.
Qed.

Lemma invoke_dangling c l h : h !! l = None → invoke (Npos l) c h = None.
Proof.
  intros Hl.
  destruct c; unfold invoke, SetMasterKey, SetKeyAltNames, SetKeyMaterial;
    apply bind_panics; by apply assign_dangling.
Qed.

Lemma performs_nil c fn σ : performs c fn → fn nil_ptr σ = None.
Proof. intros Hfn. by rewrite (Hfn nil_ptr σ). Qed.

Lemma performs_dangling c fn l σ :
  performs c fn → σ !! l = None → fn (Npos l) σ = None.
Proof. intros Hfn Hl. by rewrite (Hfn (Npos l) σ), Hl. Qed.

Lemma performs_allocated c fn l σ o :
  performs c fn → σ !! l = Some o →
  fn (Npos l) σ = Some (nil_error, <[l := assigned c o]> σ).
Proof. intros Hfn Hl. by rewrite (Hfn (Npos l) σ), Hl. Qed.

Lemma assigned_override c1 c2 o :
  target c1 = target c2 → assigned c2 (assigned c1 o) = assigned c2 o.
Proof. by destruct c1, c2. Qed.

(** After a chain that starts from a non-nil [Opts], or that makes at least
    one call, [Opts] is not nil. *)
Lemma chain_not_nil cs l h b h' :
  h !! l = Some b →
  cs ≠ [] ∨ Opts b ≠ nil_slice →
  chain (Npos l) cs h = Some (Npos l, h') →
  ∃ b', h' !! l = Some b' ∧ Opts b' ≠ nil_slice.
Proof.
  revert h b. induction cs as [|c cs IH]; intros h b Hl Hne Hcs.
  - injection Hcs as <-. exists b. by destruct Hne.
  - destruct (invoke_appends c l h b Hl) as (fn & _ & Hc).
    cbn [chain] in Hcs. erewrite bind_returns in Hcs by exact Hc.
    eapply (IH _ {| Opts := append (Opts b) fn |});
      [by rewrite lookup_insert_eq|by right|exact Hcs].
Qed.

(** X1.  A setter and [List] return if and only if the receiver points to
    an allocated builder: called through a nil pointer, or a pointer to
    nothing, they panic. *)
Theorem receiver_must_be_allocated c p h :
  (is_Some (invoke p c h) ↔ ∃ l, p = Npos l ∧ is_Some (h !! l)) ∧
  (is_Some (List p h) ↔ ∃ l, p = Npos l ∧ is_Some (h !! l)).
Proof.
  destruct p as [|l].
  - change 0%N with nil_ptr. rewrite invoke_nil.
    split; (split; [by intros [? ?]|by intros (? & ? & _)]).
  - destruct (h !! l) as [b|] eqn:Hl.
    + destruct (invoke_appends c l h b Hl) as (fn & _ & ->).
      rewrite (List_allocated l h b Hl).
      split; (split; [intros _; exists l; by rewrite Hl|by eexists]).
    + rewrite (invoke_dangling c l h Hl).
      assert (List (Npos l) h = None) as ->.
      { apply bind_panics. unfold load. by rewrite Hl. }
      split; (split; [by intros [? ?]|]);
        intros (l' & [= <-] & [? Hl']); by rewrite Hl in Hl'.
Qed.

(** X2.  Setters only append.  On any allocated builder, whatever its
    [Opts] holds already, a chain of setter calls keeps the functions that
    were there, in place and in order, and adds one function per call after
    them; after at least one call [Opts] is not nil. *)
Theorem setters_only_append cs l h b :
  h !! l = Some b →
  ∃ (news : list setter) (s' : slice setter) h',
    chain (Npos l) cs h = Some (Npos l, h') ∧
    List (Npos l) h' = Some (s', h') ∧
    elements s' = elements (Opts b) ++ news ∧
    len s' = len (Opts b) + length cs ∧
    Forall2 performs cs news ∧
    (cs ≠ [] → s' ≠ nil_slice).
Proof.
  intros Hl.
  destruct (chain_appends cs l h b Hl) as (news & [s'] & Hnews & Hs' & _ & Hcs).
  exists news, s', (<[l := {| Opts := s' |}]> h). cbn in Hs'.
  split_and!; [done| |done| |done|].
  - apply (List_allocated l _ {| Opts := s' |}). by rewrite lookup_insert_eq.
  - unfold len. rewrite Hs', length_app.
    by rewrite (Forall2_length _ _ _ Hnews).
  - intros Hne.
    destruct (chain_not_nil cs l h b _ Hl (or_introl Hne) Hcs) as (b' & Hb' & Hnil).
    rewrite lookup_insert_eq in Hb'. by injection Hb' as <-.
Qed.


(** X4.  [DataKey] returns a non-nil pointer to a builder at an address
    that was not in use, with nil [Opts], and leaves every builder of the
    heap as it was. *)
Theorem DataKey_allocates_fresh h :
  ∃ l h',
    DataKey h = Some (Npos l, h') ∧
    Npos l ≠ nil_ptr ∧
    h !! l = None ∧
    h' !! l = Some {| Opts := nil_slice |} ∧
    ∀ l', l' ≠ l → h' !! l' = h !! l'.
Proof.
  destruct (alloc_fresh {| Opts := @nil_slice (@setter dyn) |} h) as (l & Hl & Ha).
  exists l, (<[l := {| Opts := nil_slice |}]> h).
  split_and!; [done|done|done|by rewrite lookup_insert_eq|].
  intros l' Hne. by rewrite lookup_insert_ne.
Qed.

(** X5.  Builders are independent.  Two builders made by [DataKey] one
    after the other are distinct, and after a chain of calls on each, [List]
    on each returns the functions of its own calls only. *)
Theorem builders_are_independent cs1 cs2 h :
  ∃ l1 l2 (s1 s2 : slice setter) h',
    (dk1 ← DataKey; dk2 ← DataKey;
     chain dk1 cs1;; chain dk2 cs2;;
     s1 ← List dk1; s2 ← List dk2;
     mret (dk1, dk2, s1, s2)) h
    = Some ((Npos l1, Npos l2, s1, s2), h') ∧
    l1 ≠ l2 ∧
    len s1 = length cs1 ∧
    len s2 = length cs2 ∧
    Forall2 performs cs1 (elements s1) ∧
    Forall2 performs cs2 (elements s2).
Proof.
  pose (nb := {| Opts := @nil_slice (@setter dyn) |}).
  destruct (alloc_fresh nb h) as (l1 & Hl1 & Ha1).
  destruct (alloc_fresh nb (<[l1 := nb]> h)) as (l2 & Hl2 & Ha2).
  assert (l1 ≠ l2) as Hne by (intros ->; by rewrite lookup_insert_eq in Hl2).
  destruct (chain_appends cs1 l1 (<[l2 := nb]> (<[l1 := nb]> h)) nb)
    as (fns1 & [s1] & Hfns1 & Hs1 & _ & Hcs1);
    [by rewrite lookup_insert_ne, lookup_insert_eq|].
  destruct (chain_appends cs2 l2
              (<[l1 := {| Opts := s1 |}]> (<[l2 := nb]> (<[l1 := nb]> h))) nb)
    as (fns2 & [s2] & Hfns2 & Hs2 & _ & Hcs2);
    [by rewrite lookup_insert_ne, lookup_insert_eq|].
  cbn in Hs1, Hs2. subst fns1 fns2.
  eexists l1, l2, s1, s2, _. split_and!; [|done| | |done|done].
  - unfold DataKey. fold nb.
    erewrite bind_returns by exact Ha1.
    erewrite bind_returns by exact Ha2.
    erewrite bind_returns by exact Hcs1.
    erewrite bind_returns by exact Hcs2.
    erewrite bind_returns;
      last by apply (List_allocated l1 _ {| Opts := s1 |});
              rewrite lookup_insert_ne, lookup_insert_eq.
    erewrite bind_returns;
      last by apply (List_allocated l2 _ {| Opts := s2 |});
              rewrite lookup_insert_eq.
    reflexivity.
  - unfold len. symmetry. by eapply Forall2_length.
  - unfold len. symmetry. by eapply Forall2_length.
Qed.


(** X7.  A later call to the same setter overrides an earlier one on any
    record: of the two functions appended by two calls that target the same
    field, running the first and then the second on any pointer does what
    the second alone does.  In particular each function is idempotent. *)
Theorem later_call_overrides c1 c2 l h b :
  h !! l = Some b →
  target c1 = target c2 →
  ∃ (fn1 fn2 : setter) h',
    chain (Npos l) [c1; c2] h = Some (Npos l, h') ∧
    List (Npos l) h' = Some (mk_slice (elements (Opts b) ++ [fn1; fn2]), h') ∧
    ∀ p σ, (fn1 p;; fn2 p) σ = fn2 p σ.
Proof.
  intros Hl Ht.
  destruct (invoke_appends_uniform c1) as (fn1 & Hfn1 & H1).
  destruct (invoke_appends_uniform c2) as (fn2 & Hfn2 & H2).
  exists fn1, fn2, (<[l := {| Opts := mk_slice (elements (Opts b) ++ [fn1; fn2]) |}]> h).
  split_and!.
  - cbn [chain]. erewrite bind_returns by by apply H1.
    erewrite bind_returns; last by apply H2; rewrite lookup_insert_eq.
    rewrite insert_insert_eq. unfold append. cbn. by rewrite <- app_assoc.
  - apply (List_allocated l _ {| Opts := mk_slice (elements (Opts b) ++ [fn1; fn2]) |}).
    by rewrite lookup_insert_eq.
  - intros [|l'] σ.
    + rewrite bind_panics by by eapply performs_nil.
      symmetry. by eapply performs_nil.
    + destruct (σ !! l') as [o|] eqn:Hl'.
      * erewrite bind_returns by by eapply performs_allocated.
        rewrite (performs_allocated c2 fn2 l' _ (assigned c1 o))
          by (done || by rewrite lookup_insert_eq).
        rewrite (performs_allocated c2 fn2 l' σ o) by done.
        by rewrite insert_insert_eq, assigned_override.
      * rewrite bind_panics by by eapply performs_dangling.
        symmetry. by eapply performs_dangling.
Qed.

(** X8.  The functions appended by two calls that target different fields
    commute on any record: run in either order on any pointer they return
    the same error and leave the same heap. *)
Theorem deferred_assignments_commute c1 c2 l h b :
  h !! l = Some b →
  target c1 ≠ target c2 →
  ∃ (fn1 fn2 : setter) h',
    chain (Npos l) [c1; c2] h = Some (Npos l, h') ∧
    List (Npos l) h' = Some (mk_slice (elements (Opts b) ++ [fn1; fn2]), h') ∧
    ∀ p σ, (fn1 p;; fn2 p) σ = (fn2 p;; fn1 p) σ.
Proof.
  intros Hl Ht.
  destruct (invoke_appends_uniform c1) as (fn1 & Hfn1 & H1).
  destruct (invoke_appends_uniform c2) as (fn2 & Hfn2 & H2).
  exists fn1, fn2, (<[l := {| Opts := mk_slice (elements (Opts b) ++ [fn1; fn2]) |}]> h).
  split_and!.
  - cbn [chain]. erewrite bind_returns by by apply H1.
    erewrite bind_returns; last by apply H2; rewrite lookup_insert_eq.
    rewrite insert_insert_eq. unfold append. cbn. by rewrite <- app_assoc.
  - apply (List_allocated l _ {| Opts := mk_slice (elements (Opts b) ++ [fn1; fn2]) |}).
    by rewrite lookup_insert_eq.
  - intros [|l'] σ.
    + rewrite !bind_panics; [done|by eapply performs_nil..].
    + destruct (σ !! l') as [o|] eqn:Hl'.
      * erewrite (bind_returns (fn1 _)) by by eapply performs_allocated.
        erewrite (bind_returns (fn2 _)) by by eapply performs_allocated.
        rewrite (performs_allocated c2 fn2 l' _ (assigned c1 o))
          by (done || by rewrite lookup_insert_eq).
        rewrite (performs_allocated c1 fn1 l' _ (assigned c2 o))
          by (done || by rewrite lookup_insert_eq).
        by rewrite !insert_insert_eq, assigned_commute.
      * rewrite !bind_panics; [done|by eapply performs_dangling..].
Qed.

(** X9.  The function a setter appends returns if and only if it is given
    a pointer to an allocated record: on a nil pointer, or a pointer to
    nothing, it panics instead of returning an error. *)
Theorem deferred_function_needs_record c l h b :
  h !! l = Some b →
  ∃ (fn : setter) h',
    invoke (Npos l) c h = Some (Npos l, h') ∧
    List (Npos l) h' = Some (append (Opts b) fn, h') ∧
    ∀ p σ, is_Some (fn p σ) ↔ ∃ l', p = Npos l' ∧ is_Some (σ !! l').
Proof.
  intros Hl. destruct (invoke_appends c l h b Hl) as (fn & Hfn & Hc).
  exists fn, (<[l := {| Opts := append (Opts b) fn |}]> h).
  split_and!; [done| |].
  - apply (List_allocated l _ {| Opts := append (Opts b) fn |}).
    by rewrite lookup_insert_eq.
  - intros [|l'] σ.
    + rewrite (Hfn 0%N σ).
      split; [by intros [? ?]|by intros (? & ? & _)].
    + destruct (σ !! l') as [o|] eqn:Hl'.
      * rewrite (performs_allocated c fn l' σ o Hfn Hl').
        split; [intros _; exists l'; by rewrite Hl'|by eexists].
      * rewrite (performs_dangling c fn l' σ Hfn Hl').
        split; [by intros [? ?]|].
        intros (l'' & [= <-] & [? Ho]). by rewrite Hl' in Ho.
Qed.

End Further.

Lemma setters_only_append_witness :
  one_builder !! 1%positive = Some {| Opts := nil_slice |} ∧
  ∃ (news : list setter) (s' : slice setter) h',
    chain (Npos 1)
      [CallSetMasterKey aws_key; CallSetKeyAltNames (mk_slice ["a"])]
      one_builder = Some (Npos 1, h') ∧
    List (Npos 1) h' = Some (s', h') ∧
    elements s' = [] ++ news ∧
    len s' = 0 + 2 ∧
    Forall2 performs
      [CallSetMasterKey aws_key; CallSetKeyAltNames (mk_slice ["a"])] news ∧
    ([CallSetMasterKey aws_key; CallSetKeyAltNames (mk_slice ["a"])] ≠ [] →
     s' ≠ nil_slice).
Proof.
  split; [reflexivity|].
  apply (setters_only_append
           [CallSetMasterKey aws_key; CallSetKeyAltNames (mk_slice ["a"])]
           1 one_builder {| Opts := nil_slice |}).
  reflexivity.
Defined.



Lemma later_call_overrides_witness :
  one_builder !! 1%positive = Some {| Opts := nil_slice |} ∧
  target (CallSetMasterKey aws_key) = target (CallSetMasterKey azure_key) ∧
  ∃ (fn1 fn2 : setter) h',
    chain (Npos 1) [CallSetMasterKey aws_key; CallSetMasterKey azure_key]
      one_builder = Some (Npos 1, h') ∧
    List (Npos 1) h' = Some (mk_slice ([] ++ [fn1; fn2]), h') ∧
    ∀ p σ, (fn1 p;; fn2 p) σ = fn2 p σ.
Proof.
  split_and!; [reflexivity|reflexivity|].
  apply (later_call_overrides (CallSetMasterKey aws_key)
           (CallSetMasterKey azure_key) 1 one_builder {| Opts := nil_slice |});
    reflexivity.
Defined.

Lemma deferred_assignments_commute_witness :
  one_builder !! 1%positive = Some {| Opts := nil_slice |} ∧
  target (CallSetMasterKey aws_key)
  ≠ target (dyn := document) (CallSetKeyMaterial (mk_slice [Byte.x2a])) ∧
  ∃ (fn1 fn2 : setter) h',
    chain (Npos 1)
      [CallSetMasterKey aws_key; CallSetKeyMaterial (mk_slice [Byte.x2a])]
      one_builder = Some (Npos 1, h') ∧
    List (Npos 1) h' = Some (mk_slice ([] ++ [fn1; fn2]), h') ∧
    ∀ p σ, (fn1 p;; fn2 p) σ = (fn2 p;; fn1 p) σ.
Proof.
  split_and!; [reflexivity|compute_done|].
  apply (deferred_assignments_commute (CallSetMasterKey aws_key)
           (CallSetKeyMaterial (mk_slice [Byte.x2a])) 1 one_builder
           {| Opts := nil_slice |});
    [reflexivity|compute_done].
Defined.

Lemma deferred_function_needs_record_witness :
  one_builder !! 1%positive = Some {| Opts := nil_slice |} ∧
  ∃ (fn : setter) h',
    invoke (Npos 1) (CallSetKeyAltNames (mk_slice ["a"; "b"])) one_builder
    = Some (Npos 1, h') ∧
    List (Npos 1) h' = Some (append nil_slice fn, h') ∧
    ∀ p (σ : heap (@DataKeyOptions document)),
      is_Some (fn p σ) ↔ ∃ l', p = Npos l' ∧ is_Some (σ !! l').
Proof.
  split; [reflexivity|].
  apply (deferred_function_needs_record (CallSetKeyAltNames (mk_slice ["a"; "b"]))
           1 one_builder {| Opts := nil_slice |}).
  reflexivity.
Defined.
